(** * SectionProfiler: a scope-based hierarchical profiler

    Shallow embedding of [src/section_profiler.hpp].

    Numbers.  A C++ [double] is idealised as an exact real number ([R]):
    rounding is abstracted away, which is what the specification means by
    "within floating-point tolerance".  The one non-finite value the code
    ever stores, the initialiser [+infinity] of [min_time], is kept by
    giving that field the type [ereal].  A [size_t] is a [Z] in
    [0, 2^64) whose increment wraps around.

    Memory.  Every [Stats] object lives in a node of an
    [std::unordered_map], whose elements never move.  The store of all
    [Stats] objects is a list, a [Stats*] is an index into it ([addr]), and
    a map [name -> Stats] is a [gmap string addr] from names to the objects
    it owns.

    Threads.  The state holds one active stack per thread and the owner of
    the mutex.  An operation (constructor, destructor, [report]) is a
    computation in the monad [M]; it can complete, wait for the mutex, or
    be undefined.  Steps of the system are whole operations of some
    thread; every access to the shared tree is logged together with
    whether the accessing thread owned the mutex, which is how the lock
    discipline is stated. *)

From Stdlib Require Import Reals Lra Lia ZArith.
From stdpp Require Import gmap strings list fin_maps functions.

Local Open Scope R_scope.

#[local] Set Warnings "-clear-no-such-hyp".

(** ** Numbers *)

(** A [double] that may be [+infinity]. *)
Inductive ereal : Type :=
  | Finite (r : R)
  | PosInf.

(** [std::min(a, b)] is [(b < a) ? b : a]; here [a] is the stored minimum. *)
Definition std_min (a : ereal) (b : R) : ereal :=
  match a with
  | PosInf => Finite b
  | Finite x => if Rlt_dec b x then Finite b else Finite x
  end.

(** [std::max(a, b)] is [(a < b) ? b : a]. *)
Definition std_max (a b : R) : R := if Rlt_dec a b then b else a.

(** [size_t] is 64 bits wide (as on the usual 64-bit targets). *)
Definition SIZE_MAX : Z := (2 ^ 64 - 1)%Z.

(** [n++] on a [size_t]. *)
Definition size_incr (n : Z) : Z := ((n + 1) mod 2 ^ 64)%Z.

(** ** The statistics node *)

(** A [Stats*]: the index of the object in the store. *)
Abbreviation addr := nat (only parsing).

(** [struct Stats] (lines 56-63). *)
Record Stats : Type := mkStats {
  total_time : R;
  call_count : Z;
  min_time : ereal;
  max_time : R;
  sum_squares : R;
  children : gmap string addr
}.

(** The default member initialisers of [Stats]: what [operator[]] builds
    for a name that is not yet in the map. *)
Definition Stats_default : Stats :=
  {| total_time := 0; call_count := 0; min_time := PosInf; max_time := 0;
     sum_squares := 0; children := ∅ |}.

(** The five assignments of the destructor (lines 39-43) on the node
    [current_stats] points to. *)
Definition record (s : Stats) (duration : R) : Stats :=
  {| total_time := total_time s + duration;
     call_count := size_incr (call_count s);
     min_time := std_min (min_time s) duration;
     max_time := std_max (max_time s) duration;
     sum_squares := sum_squares s + duration * duration;
     children := children s |}.

(** A node whose five statistics still have their initial values; its
    [children] may already be populated by nested sections. *)
Definition pristine (s : Stats) : Prop :=
  total_time s = 0 ∧ call_count s = 0%Z ∧ min_time s = PosInf ∧
  max_time s = 0 ∧ sum_squares s = 0.

(** Sum of a list of durations. *)
Fixpoint Rsum (l : list R) : R :=
  match l with
  | [] => 0
  | x :: l' => x + Rsum l'
  end.

(** [m] is the least (greatest) element of [ds]. *)
Definition is_min (m : R) (ds : list R) : Prop := m ∈ ds ∧ ∀ d, d ∈ ds → m <= d.
Definition is_max (m : R) (ds : list R) : Prop := m ∈ ds ∧ ∀ d, d ∈ ds → d <= m.

(** The nodes the program can build: a node starts pristine, a destructor
    records a non-negative elapsed time into it, and constructors of nested
    sections add entries to its [children]. *)
Inductive reachable : Stats → Prop :=
  | reach_new s : pristine s → reachable s
  | reach_record s d :
      reachable s → 0 <= d → (call_count s < SIZE_MAX)%Z →
      reachable (record s d)
  | reach_child s name a :
      reachable s →
      reachable {| total_time := total_time s; call_count := call_count s;
                   min_time := min_time s; max_time := max_time s;
                   sum_squares := sum_squares s;
                   children := <[name := a]> (children s) |}.

(** The inductive invariant behind the statistics of a node: counts stay
    in range, an unused node is pristine, and a used one brackets its
    total between [n * min] and [n * max] and satisfies Cauchy-Schwarz. *)
Definition stats_inv (s : Stats) : Prop :=
  (0 <= call_count s <= SIZE_MAX)%Z ∧
  (call_count s = 0%Z → pristine s) ∧
  ((0 < call_count s)%Z →
   ∃ m, min_time s = Finite m ∧ 0 <= m ∧
        m * IZR (call_count s) <= total_time s ∧
        total_time s <= max_time s * IZR (call_count s) ∧
        total_time s * total_time s <= sum_squares s * IZR (call_count s)).

(** ** The rendered line *)

(** The values one iteration of the loop of [print_stats] sends to
    [std::cout] (lines 88-98); the fixed texts, widths and number
    formatting are left out. *)
Record line : Type := mkLine {
  l_indent : string;
  l_name : string;
  l_total : R;
  l_avg : R;
  l_min : R;
  l_max : R;
  l_stddev : R;
  l_pct : R
}.

(** [size_t] used as a condition: non-zero is true. *)
Definition nonzero (n : Z) : bool := negb (n =? 0)%Z.

(** Line 88. *)
Definition average (stats : Stats) : R :=
  if nonzero (call_count stats)
  then total_time stats / IZR (call_count stats) else 0.

(** Line 89. *)
Definition variance (stats : Stats) : R :=
  if nonzero (call_count stats)
  then sum_squares stats / IZR (call_count stats) - average stats * average stats
  else 0.

(** Line 90. *)
Definition stddev (stats : Stats) : R := sqrt (std_max 0 (variance stats)).

(** Line 91. *)
Definition percent (stats : Stats) (parent_time : R) : R :=
  if Rlt_dec 0 parent_time
  then total_time stats / parent_time * 100 else 100.

(** Line 95: an infinite minimum is printed as zero. *)
Definition shown_min (stats : Stats) : R :=
  match min_time stats with
  | PosInf => 0
  | Finite m => m
  end.

(** The operands of lines 93-98. *)
Definition render_line (indent key : string) (stats : Stats) (parent_time : R) : line :=
  {| l_indent := indent; l_name := key;
     l_total := total_time stats; l_avg := average stats;
     l_min := shown_min stats; l_max := max_time stats;
     l_stddev := stddev stats; l_pct := percent stats parent_time |}.

(** [print_stats] (lines 85-104).  The recursion follows pointers of the
    store, so it takes fuel; [None] is a dangling pointer or exhausted
    fuel.  The iteration order of an [unordered_map] is unspecified:
    [map_to_list] fixes one. *)
Fixpoint print_stats (fuel : nat) (st : list Stats) (stats_map : gmap string addr)
    (indent : string) (parent_time : R) : option (list line) :=
  match fuel with
  | O => None
  | S fuel' =>
      @mjoin list _ line <$> mapM (λ entry : string * addr,
          stats ← st !! entry.2;
          sub ← (if decide (children stats = ∅) then Some []
                 else print_stats fuel' st (children stats)
                        (indent +:+ "  ") (total_time stats));
          Some (render_line indent entry.1 stats parent_time :: sub))
        (map_to_list stats_map)
  end.
Arguments print_stats : simpl never.

(** ** Trackers, threads and the shared state *)

(** Thread identifiers, and [SectionProfiler*] addresses. *)
Abbreviation tid := nat (only parsing).
Abbreviation ptr := nat (only parsing).

(** The data members of a [SectionProfiler] (lines 65-68), together with
    the address [this] of the object: the active stack holds
    [SectionProfiler*], and the members never change after construction. *)
Record SectionProfiler : Type := mkProfiler {
  this : ptr;
  name : string;
  start : R;
  parent_stats : option addr;
  current_stats : addr
}.

(** Ghost record of an access to the shared tree: who touched what, and
    whether that thread owned the mutex at that moment. *)
Inductive place : Type :=
  | RootTable
  | Node (a : addr)
  | WholeTree.

Record access : Type := mkAccess {
  acc_thread : tid;
  acc_place : place;
  acc_locked : bool
}.

(** The process state: the store of [Stats] objects, the function-local
    statics [root] and [m] of [get_root_stats] and [get_mutex], the
    [thread_local] stack of [active_stack] for every thread (top first),
    and the ghost log of tree accesses (latest first). *)
Record world : Type := mkWorld {
  store : list Stats;
  root : gmap string addr;
  mutex : option tid;
  stacks : tid → list SectionProfiler;
  trace : list access
}.

Definition initial : world :=
  {| store := []; root := ∅; mutex := None; stacks := λ _, []; trace := [] |}.

Definition set_store (f : list Stats → list Stats) (w : world) : world :=
  {| store := f (store w); root := root w; mutex := mutex w;
     stacks := stacks w; trace := trace w |}.
Definition set_root (f : gmap string addr → gmap string addr) (w : world) : world :=
  {| store := store w; root := f (root w); mutex := mutex w;
     stacks := stacks w; trace := trace w |}.
Definition set_mutex (o : option tid) (w : world) : world :=
  {| store := store w; root := root w; mutex := o;
     stacks := stacks w; trace := trace w |}.
Definition set_stack (t : tid) (stk : list SectionProfiler) (w : world) : world :=
  {| store := store w; root := root w; mutex := mutex w;
     stacks := <[t := stk]> (stacks w); trace := trace w |}.
Definition set_children (f : gmap string addr → gmap string addr) (s : Stats) : Stats :=
  {| total_time := total_time s; call_count := call_count s;
     min_time := min_time s; max_time := max_time s;
     sum_squares := sum_squares s; children := f (children s) |}.

(** ** The monad of operations *)

(** An operation runs to completion, waits for the mutex, or has
    undefined behaviour (a dangling [Stats*], [pop] on an empty stack, a
    mutex misused by its owner). *)
Inductive result (A : Type) : Type :=
  | Ok (a : A) (w : world)
  | Blocked
  | Undefined.
Arguments Ok {A} a w.
Arguments Blocked {A}.
Arguments Undefined {A}.

Definition M (A : Type) : Type := world → result A.

#[global] Instance M_ret : MRet M := λ A a w, Ok a w.
#[global] Instance M_bind : MBind M := λ A B f m w,
  match m w with
  | Ok a w' => f a w'
  | Blocked => Blocked
  | Undefined => Undefined
  end.

(** Log an access of thread [t] to [p]. *)
Definition logged (t : tid) (p : place) (w : world) : world :=
  {| store := store w; root := root w; mutex := mutex w;
     stacks := stacks w;
     trace := mkAccess t p (bool_decide (mutex w = Some t)) :: trace w |}.

Definition touch (t : tid) (p : place) : M unit := λ w, Ok tt (logged t p w).

(** [std::lock_guard<std::mutex> lock(get_mutex())] and its release at the
    end of the scope. *)
Definition lock (t : tid) : M unit := λ w,
  match mutex w with
  | None => Ok tt (set_mutex (Some t) w)
  | Some o => if decide (o = t) then Undefined else Blocked
  end.

Definition unlock (t : tid) : M unit := λ w,
  match mutex w with
  | Some o => if decide (o = t) then Ok tt (set_mutex None w) else Undefined
  | None => Undefined
  end.

(** The state after [operator[]] added [key] to the Root table, or to the
    [children] of the node [s] at [p]: the new [Stats] object gets the next
    free address. *)
Definition new_root_entry (key : string) (w : world) : world :=
  set_root <[key := length (store w)]>
    (set_store (λ st, st ++ [Stats_default]) w).

Definition new_child_entry (p : addr) (s : Stats) (key : string) (w : world) : world :=
  set_store (λ st, <[p := set_children <[key := length (store w)]> s]> st
                     ++ [Stats_default]) w.

(** [get_root_stats()[key]]: [operator[]] inserts a default [Stats] when
    the key is absent and returns a reference to the element. *)
Definition root_index (t : tid) (key : string) : M addr :=
  touch t RootTable;;
  ((λ w,
    match root w !! key with
    | Some a => Ok a w
    | None => Ok (length (store w)) (new_root_entry key w)
    end) : M addr).

(** [p->children[key]]. *)
Definition children_index (t : tid) (p : addr) (key : string) : M addr :=
  touch t (Node p);;
  ((λ w,
    match store w !! p with
    | None => Undefined
    | Some s =>
        match children s !! key with
        | Some a => Ok a w
        | None => Ok (length (store w)) (new_child_entry p s key w)
        end
    end) : M addr).

(** Assignment through a [Stats*]. *)
Definition modify (t : tid) (a : addr) (f : Stats → Stats) : M unit :=
  touch t (Node a);;
  ((λ w,
    match store w !! a with
    | None => Undefined
    | Some s => Ok tt (set_store <[a := f s]> w)
    end) : M unit).

(** [active_stack()] of the calling thread, with [push] and [pop]. *)
Definition active_stack (t : tid) : M (list SectionProfiler) := λ w,
  Ok (stacks w t) w.

Definition push (t : tid) (x : SectionProfiler) : M unit := λ w,
  Ok tt (set_stack t (x :: stacks w t) w).

(** [pop] returns the removed element as a ghost result. *)
Definition pop (t : tid) : M SectionProfiler := λ w,
  match stacks w t with
  | [] => Undefined
  | x :: stk => Ok x (set_stack t stk w)
  end.

(** ** The operations of [SectionProfiler] *)

(** The map lines 23-27 index: the [children] of the parent, or the Root
    table. *)
Definition map_place (parent : option addr) : place :=
  match parent with
  | Some p => Node p
  | None => RootTable
  end.

(** Lines 23-27: the node of [key] under [parent]. *)
Definition resolve (t : tid) (parent : option addr) (key : string) : M addr :=
  match parent with
  | Some p => children_index t p key
  | None => root_index t key
  end.

(** Line 20: the node of the tracker on top of the stack, if any. *)
Definition stack_parent (stk : list SectionProfiler) : option addr :=
  match stk with
  | [] => None
  | top :: _ => Some (current_stats top)
  end.

(** The constructor (lines 17-30), run by thread [t] for the object at
    [self], with [now] the clock reading of line 18. *)
Definition ctor (t : tid) (self : ptr) (section_name : string) (now : R)
    : M SectionProfiler :=
  stk ← active_stack t;
  let parent := stack_parent stk in
  cur ← resolve t parent section_name;
  let obj := {| this := self; name := section_name; start := now;
                parent_stats := parent; current_stats := cur |} in
  push t obj;;
  mret obj.

(** The destructor (lines 32-46) of [self], run by thread [t], with
    [end_time] the clock reading of line 33.  The result is the element
    [pop] removed. *)
Definition dtor (t : tid) (self : SectionProfiler) (end_time : R)
    : M SectionProfiler :=
  let duration := end_time - start self in
  lock t;;
  modify t (current_stats self) (λ s, record s duration);;
  popped ← pop t;
  unlock t;;
  mret popped.

(** The state an operation leaves when it completes. *)
Definition world_of (r : result SectionProfiler) : world :=
  match r with
  | Ok _ w => w
  | _ => initial
  end.

(** The state once thread [0] has constructed a tracker for ["outer"], at
    address [0] and time [0], in the initial state. *)
Definition example_outer : world := world_of (ctor 0 0 "outer" 0 initial).

(** The state once thread [0] has then constructed a tracker for
    ["inner"], at address [1] and time [3], inside the first. *)
Definition example_nested : world := world_of (ctor 0 1 "inner" 3 example_outer).

(** The state [example_outer] once its tracker has been destroyed, at
    time [10]. *)
Definition example_settled : world :=
  world_of (dtor 0 (mkProfiler 0 "outer" 0 None 0) 10 example_outer).

(** What [report] writes: the banner lines (without their newlines) and
    one row per node. *)
Inductive output : Type :=
  | Text (s : string)
  | Row (l : line).

(** The traversal of line 51.  A node is allocated after its parent, so
    no path of the tree is longer than the store: that much fuel is
    enough ([print_stats_total]). *)
Definition traverse (t : tid) : M (list line) :=
  touch t WholeTree;;
  ((λ w,
    match print_stats (S (length (store w))) (store w) (root w) "" 0 with
    | Some ls => Ok ls w
    | None => Undefined
    end) : M (list line)).

(** [report] (lines 48-53). *)
Definition report (t : tid) : M (list output) :=
  lock t;;
  ls ← traverse t;
  unlock t;;
  mret (Text "=== Profiling Report ===" :: (Row <$> ls)
          ++ [Text "========================"]).

(** ** Lock discipline *)

(** The accesses an operation adds to the log. *)
Definition new_accesses (w w' : world) : list access :=
  take (length (trace w') - length (trace w)) (trace w').

(** Every logged access was made by a thread that owned the mutex. *)
Definition all_locked (l : list access) : bool :=
  forallb acc_locked l.

(** ** Well-formed states and steps *)

(** [a] is the node of [key] in the map of [parent] (the Root table when
    there is no parent). *)
Definition owns (w : world) (parent : option addr) (key : string) (a : addr) : Prop :=
  match parent with
  | None => root w !! key = Some a
  | Some p => ∃ s, store w !! p = Some s ∧ children s !! key = Some a
  end.

(** The active stack of a thread is a path of the tree: every tracker owns
    the node of its name under the tracker below it. *)
Fixpoint chain (w : world) (stk : list SectionProfiler) : Prop :=
  match stk with
  | [] => True
  | x :: below =>
      parent_stats x = stack_parent below ∧
      owns w (parent_stats x) (name x) (current_stats x) ∧
      chain w below
  end.

(** The states the operations keep the program in: entries point into the
    store and to nodes allocated after their owner, a node has exactly one
    owner, the stacks are paths of the tree, and between operations the
    mutex is free. *)
Record wf (w : world) : Prop := mkWf {
  wf_root : ∀ key a, root w !! key = Some a → (a < length (store w))%nat;
  wf_child : ∀ p s key a,
    store w !! p = Some s → children s !! key = Some a →
    (p < a < length (store w))%nat;
  wf_unique : ∀ o1 o2 k1 k2 a,
    owns w o1 k1 a → owns w o2 k2 a → o1 = o2 ∧ k1 = k2;
  wf_owned : ∀ a, (a < length (store w))%nat → ∃ o k, owns w o k a;
  wf_chain : ∀ t, chain w (stacks w t);
  wf_mutex : mutex w = None
}.

(** The baseline line 101 passes down for the entries of a map: the
    [total_time] of the node that owns it, and [0.0] for the Root table
    (line 51). *)
Definition baseline (w : world) (parent : option addr) : R :=
  match parent with
  | None => 0
  | Some p => match store w !! p with
              | Some s => total_time s
              | None => 0
              end
  end.

(** [shown st m indent pt l]: [l] is the line of a node of the forest
    below the map [m], printed with [indent] and baseline [pt] at its top
    level, and, below a node, with two more spaces and the [total_time] of
    that node. *)
Inductive shown (st : list Stats) : gmap string addr → string → R → line → Prop :=
  | shown_here m indent pt key a s :
      m !! key = Some a → st !! a = Some s →
      shown st m indent pt (render_line indent key s pt)
  | shown_below m indent pt key a s l :
      m !! key = Some a → st !! a = Some s →
      shown st (children s) (indent +:+ "  ") (total_time s) l →
      shown st m indent pt l.

(** [print_stats] once more, keeping with each line the address of the
    node it was printed for (a ghost of the traversal). *)
Fixpoint walk (fuel : nat) (st : list Stats) (stats_map : gmap string addr)
    (indent : string) (parent_time : R) : option (list (addr * line)) :=
  match fuel with
  | O => None
  | S fuel' =>
      @mjoin list _ (addr * line) <$> mapM (λ entry : string * addr,
          stats ← st !! entry.2;
          sub ← (if decide (children stats = ∅) then Some []
                 else walk fuel' st (children stats)
                        (indent +:+ "  ") (total_time stats));
          Some ((entry.2, render_line indent entry.1 stats parent_time) :: sub))
        (map_to_list stats_map)
  end.
Arguments walk : simpl never.

(** [under w a b]: the node [b] is [a] or one of its descendants. *)
Inductive under (w : world) : addr → addr → Prop :=
  | under_here a : under w a a
  | under_below a key c b :
      owns w (Some a) key c → under w c b → under w a b.

(** Every node of the store is one [reachable] describes. *)
Definition nodes_reachable (w : world) : Prop :=
  ∀ a s, store w !! a = Some s → reachable s.

(** One operation of thread [t].  A destructor runs for the object on top
    of its thread's stack: scopes close innermost first. *)
Inductive step_of (t : tid) : world → world → Prop :=
  | step_ctor self key now w obj w' :
      ctor t self key now w = Ok obj w' → step_of t w w'
  | step_dtor obj below now w popped w' :
      stacks w t = obj :: below →
      dtor t obj now w = Ok popped w' → step_of t w w'
  | step_report w out w' :
      report t w = Ok out w' → step_of t w w'.


(** ** Scoped use of the profiler by one thread *)

(** A block of instrumented code: [Profiled key body rest] is
    [{ PROFILE_SECTION(key); body } rest], [Throw] raises an exception
    that leaves every enclosing block. *)
Inductive code : Type :=
  | Done
  | Work (d : R) (rest : code)
  | Throw
  | Profiled (key : string) (body : code) (rest : code).

Inductive outcome : Type :=
  | Normal
  | Raised.

(** Ghost events of a thread: a tracker was constructed; the destructor
    of [x] ran and [pop] removed [popped]. *)
Inductive event : Type :=
  | Armed (x : ptr)
  | Settled (x popped : ptr).

(** The thread's clock reading, the next free tracker address and the
    events so far (oldest first). *)
Record frame : Type := mkFrame {
  clock : R;
  fresh : ptr;
  events : list event
}.

(** Running a block on thread [t]: the destructor of a tracker runs when
    its block is left, normally or by an exception. *)
Fixpoint exec (t : tid) (c : code) (fr : frame) : M (outcome * frame) :=
  match c with
  | Done => mret (Normal, fr)
  | Throw => mret (Raised, fr)
  | Work d rest =>
      exec t rest {| clock := clock fr + d; fresh := fresh fr; events := events fr |}
  | Profiled key body rest =>
      obj ← ctor t (fresh fr) key (clock fr);
      r ← exec t body {| clock := clock fr; fresh := S (fresh fr);
                         events := events fr ++ [Armed (this obj)] |};
      popped ← dtor t obj (clock r.2);
      let fr' := {| clock := clock r.2; fresh := fresh r.2;
                    events := events r.2 ++ [Settled (this obj) (this popped)] |} in
      match r.1 with
      | Normal => exec t rest fr'
      | Raised => mret (Raised, fr')
      end
  end.

(** Whether a block is left by an exception, and the time its execution
    takes: the [Work] it does before it ends or throws. *)
Fixpoint raises (c : code) : bool :=
  match c with
  | Done => false
  | Throw => true
  | Work _ rest => raises rest
  | Profiled _ body rest => raises body || raises rest
  end.

Fixpoint elapsed (c : code) : R :=
  match c with
  | Done | Throw => 0
  | Work d rest => d + elapsed rest
  | Profiled _ body rest =>
      elapsed body + (if raises body then 0 else elapsed rest)
  end.

(** A section that works for 10 ms and then runs a nested section of 5 ms
    twice. *)
Definition example_loop : code :=
  Profiled "outer"
    (Work 10 (Profiled "inner" (Work 5 Done)
                (Profiled "inner" (Work 5 Done) Done)))
    Done.

(** A block with a nested section left by an exception. *)
Definition example_block : code :=
  Profiled "outer" (Work 10 (Profiled "inner" (Work 5 Throw) Done)) Done.

(** Replays a list of events against a stack of open trackers: a
    destructor must run for the most recently armed open tracker and pop
    that same tracker. *)
Fixpoint lifo_run (open : list ptr) (evs : list event) : option (list ptr) :=
  match evs with
  | [] => Some open
  | Armed x :: evs' => lifo_run (x :: open) evs'
  | Settled x popped :: evs' =>
      match open with
      | y :: open' =>
          if decide (x = y ∧ popped = x) then lifo_run open' evs' else None
      | [] => None
      end
  end.

(** A list of events that settles every tracker it arms, innermost first,
    and nothing else. *)
Definition balanced (evs : list event) : Prop :=
  ∀ open, lifo_run open evs = Some open.

(** The events of a section: its tracker is armed, the events of its body
    are balanced, the tracker settles and pops itself, and what follows the
    section is balanced again. *)
Definition section_shape (c : code) (evs : list event) : Prop :=
  match c with
  | Profiled _ _ _ =>
      ∃ x evb evr,
        evs = [Armed x] ++ evb ++ [Settled x x] ++ evr ∧
        balanced evb ∧ balanced evr
  | _ => True
  end.

(** Running a block on thread [t] while the other threads perform
    operations of their own between any two operations of [t]. *)
Inductive runs (t : tid) : code → frame → world → outcome → frame → world → Prop :=
  | runs_done fr w : runs t Done fr w Normal fr w
  | runs_throw fr w : runs t Throw fr w Raised fr w
  | runs_work d rest fr w o fr' w' :
      runs t rest {| clock := clock fr + d; fresh := fresh fr;
                     events := events fr |} w o fr' w' →
      runs t (Work d rest) fr w o fr' w'
  | runs_profiled key body rest fr w obj w1 fr1 w2 popped w3 o fr' w' :
      ctor t (fresh fr) key (clock fr) w = Ok obj w1 →
      runs t body {| clock := clock fr; fresh := S (fresh fr);
                     events := events fr ++ [Armed (this obj)] |}
           w1 Normal fr1 w2 →
      dtor t obj (clock fr1) w2 = Ok popped w3 →
      runs t rest
        {| clock := clock fr1; fresh := fresh fr1;
           events := events fr1 ++ [Settled (this obj) (this popped)] |}
        w3 o fr' w' →
      runs t (Profiled key body rest) fr w o fr' w'
  | runs_unwound key body rest fr w obj w1 fr1 w2 popped w3 :
      ctor t (fresh fr) key (clock fr) w = Ok obj w1 →
      runs t body {| clock := clock fr; fresh := S (fresh fr);
                     events := events fr ++ [Armed (this obj)] |}
           w1 Raised fr1 w2 →
      dtor t obj (clock fr1) w2 = Ok popped w3 →
      runs t (Profiled key body rest) fr w Raised
        {| clock := clock fr1; fresh := fresh fr1;
           events := events fr1 ++ [Settled (this obj) (this popped)] |}
        w3
  | runs_others t' c fr w w1 o fr' w' :
      t' ≠ t → step_of t' w w1 →
      runs t c fr w1 o fr' w' →
      runs t c fr w o fr' w'.

(** The five statistics of two nodes agree. *)
Definition same_statistics (s s' : Stats) : Prop :=
  total_time s' = total_time s ∧ call_count s' = call_count s ∧
  min_time s' = min_time s ∧ max_time s' = max_time s ∧
  sum_squares s' = sum_squares s.

(** Unfolds the binds of [M]. *)
Ltac run_M := unfold mbind, M_bind, mret, M_ret; cbn beta iota.

(** * Properties *)

(** ** Lemmas on [record] *)

Lemma std_max_Rmax a b : std_max a b = Rmax a b.
Proof.
  unfold std_max, Rmax.
  destruct (Rlt_dec a b), (Rle_dec a b); lra.
Qed.

Lemma std_min_finite a b : std_min (Finite a) b = Finite (Rmin a b).
Proof.
  unfold std_min, Rmin.
  destruct (Rlt_dec b a), (Rle_dec a b); f_equal; lra.
Qed.

Lemma size_incr_small n : (0 <= n < SIZE_MAX)%Z → size_incr n = (n + 1)%Z.
Proof.
  unfold size_incr, SIZE_MAX. intros H.
  apply Z.mod_small. lia.
Qed.

Lemma fold_record_snoc ds d s :
  fold_left record (ds ++ [d]) s = record (fold_left record ds s) d.
Proof. by rewrite fold_left_app. Qed.

Lemma fold_record_children ds s :
  children (fold_left record ds s) = children s.
Proof. revert s. induction ds as [|d ds IH]; intros s; simpl; [done | by rewrite IH]. Qed.

Lemma fold_record_count ds s :
  (0 <= call_count s)%Z →
  (call_count s + Z.of_nat (length ds) <= SIZE_MAX)%Z →
  call_count (fold_left record ds s) = (call_count s + Z.of_nat (length ds))%Z.
Proof.
  revert s. induction ds as [|d ds IH]; intros s H0 Hlen; simpl in *; [lia|].
  rewrite IH; simpl; rewrite size_incr_small; lia.
Qed.

Lemma fold_record_total ds s :
  total_time (fold_left record ds s) = total_time s + Rsum ds.
Proof.
  revert s. induction ds as [|d ds IH]; intros s; simpl; [lra|].
  rewrite IH. simpl. lra.
Qed.

Lemma fold_record_squares ds s :
  sum_squares (fold_left record ds s) = sum_squares s + Rsum (map (λ d, d * d) ds).
Proof.
  revert s. induction ds as [|d ds IH]; intros s; simpl; [lra|].
  rewrite IH. simpl. lra.
Qed.

Lemma is_min_snoc m ds d : is_min m ds → is_min (Rmin m d) (ds ++ [d]).
Proof.
  intros [Hin Hle]. split.
  - unfold Rmin. destruct (Rle_dec m d); set_solver.
  - intros x [Hx | Hx%list_elem_of_singleton]%elem_of_app.
    + pose proof (Hle x Hx). pose proof (Rmin_l m d). lra.
    + subst. apply Rmin_r.
Qed.

Lemma is_max_snoc m ds d : is_max m ds → is_max (Rmax m d) (ds ++ [d]).
Proof.
  intros [Hin Hle]. split.
  - unfold Rmax. destruct (Rle_dec m d); set_solver.
  - intros x [Hx | Hx%list_elem_of_singleton]%elem_of_app.
    + pose proof (Hle x Hx). pose proof (Rmax_l m d). lra.
    + subst. apply Rmax_r.
Qed.

(** Minimum after a non-empty fold from a pristine node. *)
Lemma fold_record_min ds s :
  min_time s = PosInf → ds ≠ [] →
  ∃ m, min_time (fold_left record ds s) = Finite m ∧ is_min m ds.
Proof.
  intros Hmin.
  induction ds as [|d ds IH] using rev_ind; [done|]. intros _.
  rewrite fold_record_snoc. simpl.
  destruct ds as [|d0 ds0].
  - simpl. rewrite Hmin. simpl. exists d. split; [done|].
    split; [apply list_elem_of_singleton; done|].
    intros x Hx%list_elem_of_singleton. subst x. lra.
  - destruct IH as (m & Hm & Hism); [done|].
    rewrite Hm, std_min_finite.
    exists (Rmin m d). split; [done|]. by apply is_min_snoc.
Qed.

(** Maximum after a non-empty fold of non-negative durations. *)
Lemma fold_record_max ds s :
  max_time s = 0 → Forall (Rle 0) ds → ds ≠ [] →
  is_max (max_time (fold_left record ds s)) ds.
Proof.
  intros Hmax.
  induction ds as [|d ds IH] using rev_ind; [done|].
  intros [Hds Hd%Forall_inv]%Forall_app _.
  rewrite fold_record_snoc. simpl. rewrite std_max_Rmax.
  destruct ds as [|d0 ds0].
  - simpl. rewrite Hmax, Rmax_right by lra.
    split; [apply list_elem_of_singleton; done|].
    intros x Hx%list_elem_of_singleton. subst x. lra.
  - by apply is_max_snoc, IH.
Qed.

(** C2.  Folding the durations [ds] into a node whose statistics are still
    initial leaves [call_count] equal to their number, [total_time] to
    their sum, [sum_squares] to the sum of their squares, [min_time] to
    their least element and, the durations being elapsed times (not
    negative), [max_time] to their greatest element.  The counter is a
    [size_t]: the number of durations is at most [SIZE_MAX]. *)
Theorem record_fold_summary (ds : list R) (s : Stats) :
  pristine s →
  (Z.of_nat (length ds) <= SIZE_MAX)%Z →
  let s' := fold_left record ds s in
  call_count s' = Z.of_nat (length ds) ∧
  total_time s' = Rsum ds ∧
  sum_squares s' = Rsum (map (λ d, d * d) ds) ∧
  (ds ≠ [] → ∃ m, min_time s' = Finite m ∧ is_min m ds) ∧
  (ds ≠ [] → Forall (Rle 0) ds → is_max (max_time s') ds).
Proof.
  intros (Ht & Hc & Hmin & Hmax & Hss) Hlen. cbn zeta.
  split; [|split; [|split; [|split]]].
  - rewrite fold_record_count; lia.
  - rewrite fold_record_total. lra.
  - rewrite fold_record_squares. lra.
  - intros Hne. by apply fold_record_min.
  - intros Hne Hpos. by apply fold_record_max.
Qed.

Lemma record_fold_summary_witness :
  let s' := fold_left record [3; 1; 2] Stats_default in
  call_count s' = 3%Z ∧ total_time s' = 6 ∧ sum_squares s' = 14 ∧
  min_time s' = Finite 1 ∧ max_time s' = 3.
Proof.
  assert (Hp : pristine Stats_default) by (by repeat split).
  assert (Hlen : (Z.of_nat (length [3; 1; 2]) <= SIZE_MAX)%Z) by (vm_compute; discriminate).
  destruct (record_fold_summary [3; 1; 2] Stats_default Hp Hlen)
    as (Hc & Ht & Hss & Hmin & Hmax).
  cbn zeta. split; [exact Hc|]. split; [rewrite Ht; simpl; lra|].
  split; [rewrite Hss; simpl; lra|].
  destruct Hmin as (m & Hm & Hin & Hle); [done|].
  destruct Hmax as [Hin' Hle']; [done | repeat constructor; lra |].
  split.
  - rewrite Hm. f_equal.
    assert (m <= 1) by (apply Hle; set_solver).
    assert (1 <= m); [|lra].
    apply list_elem_of_In in Hin. simpl in Hin.
    destruct Hin as [<-|[<-|[<-|[]]]]; lra.
  - set (mx := max_time _) in *.
    assert (3 <= mx) by (apply Hle'; set_solver).
    apply list_elem_of_In in Hin'. simpl in Hin'.
    destruct Hin' as [Hm3|[Hm3|[Hm3|[]]]]; lra.
Defined.

(** ** The invariant of a node *)

Lemma pristine_inv s : pristine s → stats_inv s.
Proof.
  intros Hp. pose proof Hp as (_ & Hc & _). unfold stats_inv.
  rewrite Hc. unfold SIZE_MAX. split; [lia|]. split; [done | lia].
Qed.

Lemma record_inv s d :
  stats_inv s → 0 <= d → (call_count s < SIZE_MAX)%Z → stats_inv (record s d).
Proof.
  intros (Hrange & Hzero & Hpos) Hd Hlt. unfold stats_inv. simpl.
  rewrite size_incr_small by lia.
  split; [lia|]. split; [lia|]. intros _.
  rewrite plus_IZR.
  destruct (decide (call_count s = 0%Z)) as [Hc|Hc].
  - destruct (Hzero Hc) as (Ht & _ & Hmin & Hmax & Hss).
    rewrite Hc, Ht, Hmin, Hmax, Hss. simpl.
    rewrite std_max_Rmax, Rmax_right by lra.
    exists d. split; [done|]. split; [done|]. split; [lra|]. split; lra.
  - destruct Hpos as (m & Hm & Hm0 & Hlo & Hhi & Hcs); [lia|].
    rewrite Hm, std_min_finite, std_max_Rmax.
    assert (Hn : 1 <= IZR (call_count s)) by (apply IZR_le; lia).
    set (n := IZR (call_count s)) in *.
    set (T := total_time s) in *. set (S := sum_squares s) in *.
    exists (Rmin m d). split; [done|].
    pose proof (Rmin_l m d). pose proof (Rmin_r m d).
    pose proof (Rmax_l (max_time s) d). pose proof (Rmax_r (max_time s) d).
    split; [apply Rmin_glb; lra|].
    assert (Rmin m d * n <= m * n) by (apply Rmult_le_compat_r; lra).
    assert (max_time s * n <= Rmax (max_time s) d * n)
      by (apply Rmult_le_compat_r; lra).
    split; [lra|]. split; [lra|].
    pose proof (Rle_0_sqr (T - d * n)) as Hsq. unfold Rsqr in Hsq.
    assert (Hx : n * 0 <= n * (S + d * d * n - 2 * d * T)) by lra.
    apply Rmult_le_reg_l in Hx; lra.
Qed.

Lemma reachable_inv s : reachable s → stats_inv s.
Proof.
  induction 1 as [s Hp | s d _ IH Hd Hlt | s key a _ IH].
  - by apply pristine_inv.
  - by apply record_inv.
  - exact IH.
Qed.

(** C5.  In every node the program can build, by any number of record
    steps with non-negative durations, once [call_count] is positive the
    average lies between [min_time] and [max_time] and the variance
    [sum_squares / call_count - average^2] is not negative.  The proof is
    by induction on the steps: each record step preserves [stats_inv]. *)
Theorem reachable_mean_between_min_max (s : Stats) :
  reachable s → (0 < call_count s)%Z →
  ∃ m, min_time s = Finite m ∧
       m <= total_time s / IZR (call_count s) ∧
       total_time s / IZR (call_count s) <= max_time s ∧
       0 <= sum_squares s / IZR (call_count s)
            - (total_time s / IZR (call_count s)) * (total_time s / IZR (call_count s)).
Proof.
  intros Hr Hpos. destruct (reachable_inv s Hr) as (_ & _ & Hinv).
  destruct (Hinv Hpos) as (m & Hm & _ & Hlo & Hhi & Hcs).
  assert (Hn : 0 < IZR (call_count s)) by (apply IZR_lt; lia).
  set (n := IZR (call_count s)) in *.
  exists m. split; [done|].
  assert (Ht : total_time s / n * n = total_time s) by (field; lra).
  split; [apply (Rmult_le_reg_r n); lra|].
  split; [apply (Rmult_le_reg_r n); lra|].
  cut (total_time s / n * (total_time s / n) <= sum_squares s / n); [lra|].
  apply (Rmult_le_reg_r (n * n)).
  { apply Rmult_lt_0_compat; lra. }
  assert (Hsq : total_time s / n * (total_time s / n) * (n * n)
                = total_time s * total_time s) by (field; lra).
  assert (Hss : sum_squares s / n * (n * n) = sum_squares s * n) by (field; lra).
  lra.
Qed.

Lemma reachable_mean_between_min_max_witness :
  ∃ m, min_time (record Stats_default 2) = Finite m ∧
       m <= total_time (record Stats_default 2) / IZR (call_count (record Stats_default 2)) ∧
       total_time (record Stats_default 2) / IZR (call_count (record Stats_default 2))
         <= max_time (record Stats_default 2) ∧
       0 <= sum_squares (record Stats_default 2) / IZR (call_count (record Stats_default 2))
            - (total_time (record Stats_default 2) / IZR (call_count (record Stats_default 2)))
              * (total_time (record Stats_default 2) / IZR (call_count (record Stats_default 2))).
Proof.
  apply (reachable_mean_between_min_max (record Stats_default 2)).
  - apply reach_record; [apply reach_new; by repeat split | lra | reflexivity].
  - reflexivity.
Defined.

(** ** Derived statistics of a rendered line *)






(** C8.  A node the program can build whose [call_count] is zero still
    holds [+infinity] in [min_time], and its line shows average, minimum,
    maximum and standard deviation all as zero. *)
Theorem unused_node_renders_zero (stats : Stats) (indent key : string) (parent_time : R) :
  reachable stats → call_count stats = 0%Z →
  let l := render_line indent key stats parent_time in
  min_time stats = PosInf ∧
  l_avg l = 0 ∧ l_min l = 0 ∧ l_max l = 0 ∧ l_stddev l = 0.
Proof.
  intros Hr Hc. destruct (reachable_inv _ Hr) as (_ & Hzero & _).
  destruct (Hzero Hc) as (Ht & _ & Hmin & Hmax & Hss). simpl.
  unfold average, shown_min, stddev, variance. rewrite Hc, Hmin, Hmax. simpl.
  repeat split; try done.
  rewrite std_max_Rmax, Rmax_left by lra. apply sqrt_0.
Qed.

Lemma unused_node_renders_zero_witness :
  let l := render_line "" "idle" Stats_default 0 in
  min_time Stats_default = PosInf ∧
  l_avg l = 0 ∧ l_min l = 0 ∧ l_max l = 0 ∧ l_stddev l = 0.
Proof.
  apply (unused_node_renders_zero Stats_default "" "idle" 0).
  - apply reach_new. by repeat split.
  - reflexivity.
Defined.

(** ** The operations, equation by equation *)

Lemma ctor_eq t self key now w :
  ctor t self key now w =
  match resolve t (stack_parent (stacks w t)) key w with
  | Ok cur w1 =>
      let obj := {| this := self; name := key; start := now;
                    parent_stats := stack_parent (stacks w t); current_stats := cur |} in
      Ok obj (set_stack t (obj :: stacks w1 t) w1)
  | Blocked => Blocked
  | Undefined => Undefined
  end.
Proof. unfold ctor, active_stack, push. run_M. destruct (resolve _ _ _ _); reflexivity. Qed.

Lemma resolve_hit t parent key w a :
  owns w parent key a →
  resolve t parent key w = Ok a (logged t (map_place parent) w).
Proof.
  destruct parent as [p|]; simpl.
  - intros (s & Hs & Ha). unfold children_index, touch. run_M. simpl.
    by rewrite Hs, Ha.
  - intros Ha. unfold root_index, touch. run_M. simpl. by rewrite Ha.
Qed.

Lemma resolve_miss_root t key w :
  root w !! key = None →
  resolve t None key w
  = Ok (length (store w)) (new_root_entry key (logged t RootTable w)).
Proof. intros Hk. simpl. unfold root_index, touch. run_M. simpl. by rewrite Hk. Qed.

Lemma resolve_miss_child t p s key w :
  store w !! p = Some s → children s !! key = None →
  resolve t (Some p) key w
  = Ok (length (store w)) (new_child_entry p s key (logged t (Node p) w)).
Proof.
  intros Hs Hk. simpl. unfold children_index, touch. run_M. simpl.
  by rewrite Hs, Hk.
Qed.

(** Ownership in the state after an insertion. *)
Lemma owns_new_root key w o k b :
  root w !! key = None →
  owns (new_root_entry key w) o k b
  ↔ owns w o k b ∨ (o = None ∧ k = key ∧ b = length (store w)).
Proof.
  intros Hk. destruct o as [q|]; simpl.
  - split.
    + intros (s & Hs & Hb). left.
      apply lookup_app_Some in Hs as [Hs | [Hlen Hs]]; [by exists s|].
      apply list_lookup_singleton_Some in Hs as [_ <-]. done.
    + intros [(s & Hs & Hb) | (? & _)]; [|done].
      exists s. split; [|done]. by apply lookup_app_l_Some.
  - destruct (decide (k = key)) as [->|Hne].
    + rewrite lookup_insert_eq, Hk. naive_solver.
    + rewrite lookup_insert_ne by done. naive_solver.
Qed.

Lemma owns_new_child p s key w o k b :
  store w !! p = Some s → children s !! key = None →
  owns (new_child_entry p s key w) o k b
  ↔ owns w o k b ∨ (o = Some p ∧ k = key ∧ b = length (store w)).
Proof.
  intros Hp Hk. pose proof (lookup_lt_Some _ _ _ Hp) as Hlt.
  destruct o as [q|]; simpl; [|naive_solver].
  destruct (decide (q = p)) as [->|Hq].
  - rewrite lookup_app_l by (by rewrite length_insert).
    rewrite list_lookup_insert_eq by done.
    split.
    + intros (s' & [= <-] & Hb). simpl in Hb.
      destruct (decide (k = key)) as [->|Hne].
      * rewrite lookup_insert_eq in Hb. naive_solver.
      * rewrite lookup_insert_ne in Hb by done. left. by exists s.
    + intros [(s' & Hs' & Hb) | (_ & -> & ->)].
      * assert (s' = s) as -> by congruence.
        eexists. split; [done|]. simpl.
        rewrite lookup_insert_ne; [done|]. congruence.
      * eexists. split; [done|]. simpl. by rewrite lookup_insert_eq.
  - split.
    + intros (s' & Hs' & Hb). left.
      apply lookup_app_Some in Hs' as [Hs' | [Hlen Hs']].
      * rewrite list_lookup_insert_ne in Hs' by done. by exists s'.
      * apply list_lookup_singleton_Some in Hs' as [_ <-]. done.
    + intros [(s' & Hs' & Hb) | (? & _)]; [|congruence].
      exists s'. split; [|done]. apply lookup_app_l_Some.
      by rewrite list_lookup_insert_ne.
Qed.

(** What [resolve] does: either the entry exists and nothing but the log
    changes, or a new node is appended to the store and becomes the one
    new ownership. *)
Lemma resolve_spec t parent key w a w1 :
  resolve t parent key w = Ok a w1 →
  stacks w1 = stacks w ∧ mutex w1 = mutex w ∧
  trace w1 = mkAccess t (map_place parent) (bool_decide (mutex w = Some t)) :: trace w ∧
  (∀ p, parent = Some p → (p < length (store w))%nat) ∧
  ((owns w parent key a ∧ store w1 = store w ∧ root w1 = root w) ∨
   ((∀ b, ¬ owns w parent key b) ∧ a = length (store w) ∧
    length (store w1) = S (length (store w)) ∧
    ∀ o k b, owns w1 o k b ↔ owns w o k b ∨ (o = parent ∧ k = key ∧ b = a))).
Proof.
  destruct parent as [p|].
  - destruct (store w !! p) as [s|] eqn:Hs.
    2:{ simpl. unfold children_index, touch. run_M. simpl. by rewrite Hs. }
    assert (Hp : ∀ p', Some p = Some p' → (p' < length (store w))%nat).
    { intros p' [= <-]. by eapply lookup_lt_Some. }
    destruct (children s !! key) as [a'|] eqn:Hk.
    + rewrite (resolve_hit t (Some p) key w a') by (by exists s).
      intros [= <- <-]. repeat split; [done|]. left.
      split; [by exists s | done].
    + rewrite (resolve_miss_child t p s key w) by done.
      intros [= <- <-]. repeat split; [done|]. right.
      split; [|split; [done|split]].
      * intros b (s' & Hs' & Hb). congruence.
      * simpl. rewrite length_app, length_insert. simpl. lia.
      * intros o k b. apply (owns_new_child p s key (logged t (Node p) w)); done.
  - destruct (root w !! key) as [a'|] eqn:Hk.
    + rewrite (resolve_hit t None key w a') by done.
      intros [= <- <-]. repeat split; [done|]. by left.
    + rewrite resolve_miss_root by done.
      intros [= <- <-]. repeat split; [done|]. right.
      split; [|split; [done|split]].
      * intros b Hb. simpl in Hb. congruence.
      * simpl. rewrite length_app. simpl. lia.
      * intros o k b. apply (owns_new_root key (logged t RootTable w)); done.
Qed.

Lemma resolve_total t parent key w :
  (∀ p, parent = Some p → (p < length (store w))%nat) →
  ∃ a w1, resolve t parent key w = Ok a w1.
Proof.
  intros Hp. destruct parent as [p|].
  - destruct (lookup_lt_is_Some_2 (store w) p) as [s Hs]; [by apply Hp|].
    destruct (children s !! key) as [a|] eqn:Hk.
    + eexists _, _. apply resolve_hit. by exists s.
    + eexists _, _. by apply resolve_miss_child.
  - destruct (root w !! key) as [a|] eqn:Hk.
    + eexists _, _. by apply resolve_hit.
    + eexists _, _. by apply resolve_miss_root.
Qed.

(** ** Well-formedness is an invariant *)

Lemma owned_allocated w o k a : wf w → owns w o k a → (a < length (store w))%nat.
Proof.
  intros Hwf Ho. destruct o as [p|]; simpl in Ho.
  - destruct Ho as (s & Hs & Ha). by eapply wf_child.
  - by eapply wf_root.
Qed.

Lemma chain_mono w w' stk :
  (∀ o k a, owns w o k a → owns w' o k a) → chain w stk → chain w' stk.
Proof.
  intros Hmono. induction stk as [|x below IH]; simpl; [done|].
  intros (Hp & Ho & Hc). auto.
Qed.

Lemma chain_allocated w stk x :
  wf w → chain w stk → x ∈ stk → (current_stats x < length (store w))%nat.
Proof.
  intros Hwf. induction stk as [|y below IH]; simpl; [by intros _ ?%elem_of_nil|].
  intros (_ & Ho & Hc) [->|Hx]%elem_of_cons; [|by apply IH].
  by eapply owned_allocated.
Qed.

Lemma initial_wf : wf initial.
Proof.
  split; simpl; try done.
  - intros o1 o2 k1 k2 a Ho1. destruct o1; simpl in Ho1; [|done].
    by destruct Ho1 as (? & ? & ?).
  - intros a Ha. lia.
Qed.

(** [resolve] preserves the three ownership invariants. *)
Lemma resolve_wf_owns t parent key w a w1 :
  wf w → resolve t parent key w = Ok a w1 →
  (length (store w) ≤ length (store w1))%nat ∧
  owns w1 parent key a ∧
  (∀ o k b, owns w o k b → owns w1 o k b) ∧
  (∀ k b, owns w1 None k b → (b < length (store w1))%nat) ∧
  (∀ p k b, owns w1 (Some p) k b → (p < b < length (store w1))%nat) ∧
  (∀ o1 o2 k1 k2 b, owns w1 o1 k1 b → owns w1 o2 k2 b → o1 = o2 ∧ k1 = k2) ∧
  (∀ b, (b < length (store w1))%nat → ∃ o k, owns w1 o k b).
Proof.
  intros Hwf Hres.
  destruct (resolve_spec _ _ _ _ _ _ Hres) as (_ & _ & _ & Hpar & Hcase).
  assert (Hchild : ∀ p k b, owns w (Some p) k b → (p < b < length (store w))%nat).
  { intros p k b (s & Hs & Hb). by eapply wf_child. }
  destruct Hcase as [(Ho & Hst & Hrt) | (Hnone & -> & Hlen & Howns)].
  - assert (Hsame : ∀ o k b, owns w1 o k b ↔ owns w o k b).
    { intros [p|] k b; simpl; by rewrite ?Hst, ?Hrt. }
    rewrite Hst. split; [lia|]. split; [by apply Hsame|].
    split; [intros; by apply Hsame|].
    split; [intros k b Hb%Hsame; by eapply wf_root|].
    split; [intros p k b Hb%Hsame; by apply Hchild in Hb|].
    split; [intros o1 o2 k1 k2 b H1%Hsame H2%Hsame; by eapply wf_unique|].
    intros b Hb. destruct (wf_owned w Hwf b Hb) as (o & k & Hob).
    exists o, k. by apply Hsame.
  - rewrite Hlen. split; [lia|]. split; [apply Howns; by right|].
    split; [intros o k b Hb; apply Howns; by left|].
    split; [|split; [|split]].
    + intros k b [Hb | (_ & _ & ->)]%Howns; [|lia].
      apply (wf_root w Hwf) in Hb. lia.
    + intros p k b [Hb | (Hp & _ & ->)]%Howns.
      * apply Hchild in Hb. lia.
      * symmetry in Hp. apply Hpar in Hp. lia.
    + intros o1 o2 k1 k2 b [H1 | (-> & -> & ->)]%Howns [H2 | (E2 & E3 & E4)]%Howns.
      * by eapply wf_unique.
      * subst b. apply (owned_allocated w _ _ _ Hwf) in H1. lia.
      * apply (owned_allocated w _ _ _ Hwf) in H2. lia.
      * by subst.
    + intros b Hb. destruct (decide (b = length (store w))) as [->|Hne].
      * exists parent, key. apply Howns. by right.
      * destruct (wf_owned w Hwf b) as (o & k & Hob); [lia|].
        exists o, k. apply Howns. by left.
Qed.

Lemma ctor_wf t self key now w obj w' :
  wf w → ctor t self key now w = Ok obj w' → wf w'.
Proof.
  intros Hwf. rewrite ctor_eq.
  destruct (resolve _ _ _ _) as [cur w1| |] eqn:Hres; [|done..].
  intros [= <- <-].
  destruct (resolve_spec _ _ _ _ _ _ Hres) as (Hstk & Hmx & _ & _ & _).
  destruct (resolve_wf_owns _ _ _ _ _ _ Hwf Hres)
    as (_ & Hnew & Hmono & Hroot & Hchild & Huniq & Howned).
  split; simpl.
  - intros k b Hb. by apply (Hroot k b).
  - intros p s k b Hs Hb. apply (Hchild p k b). by exists s.
  - exact Huniq.
  - exact Howned.
  - intros t'. destruct (decide (t' = t)) as [->|Hne].
    + rewrite fn_lookup_insert, Hstk. simpl. split; [done|].
      split; [exact Hnew|].
      apply (chain_mono w); [exact Hmono | apply (wf_chain w Hwf)].
    + rewrite fn_lookup_insert_ne by done. rewrite Hstk.
      apply (chain_mono w); [exact Hmono | apply (wf_chain w Hwf)].
  - rewrite Hmx. apply (wf_mutex w Hwf).
Qed.

(** The destructor, when it runs: the mutex was free, the node exists and
    the stack is not empty. *)
Lemma dtor_spec t self end_time w popped w' :
  dtor t self end_time w = Ok popped w' →
  mutex w = None ∧
  ∃ s below,
    store w !! current_stats self = Some s ∧
    stacks w t = popped :: below ∧
    store w' = <[current_stats self := record s (end_time - start self)]> (store w) ∧
    root w' = root w ∧ mutex w' = None ∧
    stacks w' = <[t := below]> (stacks w) ∧
    trace w' = mkAccess t (Node (current_stats self)) true :: trace w.
Proof.
  unfold dtor, lock, modify, pop, unlock, touch. run_M.
  destruct (mutex w) eqn:Hm; [by case_decide|]. simpl.
  destruct (store w !! current_stats self) as [s|] eqn:Hs; [|done]. simpl.
  destruct (stacks w t) as [|x below] eqn:Hstk; [done|]. simpl.
  rewrite decide_True by done.
  intros [= <- <-]. split; [done|]. exists s, below.
  simpl. rewrite bool_decide_true by done. done.
Qed.

Lemma dtor_total t self end_time w s x below :
  mutex w = None → store w !! current_stats self = Some s →
  stacks w t = x :: below →
  ∃ w', dtor t self end_time w = Ok x w'.
Proof.
  intros Hm Hs Hstk.
  unfold dtor, lock, modify, pop, unlock, touch. run_M.
  rewrite Hm. simpl. rewrite Hs. simpl. rewrite Hstk. simpl.
  rewrite decide_True by done. by eexists.
Qed.

Lemma owns_modify w w' a s f :
  store w !! a = Some s → children (f s) = children s →
  store w' = <[a := f s]> (store w) → root w' = root w →
  ∀ o k b, owns w' o k b ↔ owns w o k b.
Proof.
  intros Hs Hf Hst Hrt [p|] k b; simpl; rewrite ?Hst, ?Hrt; [|done].
  destruct (decide (p = a)) as [->|Hne].
  - rewrite list_lookup_insert_eq by (by eapply lookup_lt_Some). split.
    + intros (s' & [= <-] & Hb). exists s. by rewrite <- Hf.
    + intros (s' & Hs' & Hb). assert (s' = s) as -> by congruence.
      eexists. split; [done|]. by rewrite Hf.
  - by rewrite list_lookup_insert_ne.
Qed.

Lemma dtor_wf t self end_time w popped w' :
  wf w → dtor t self end_time w = Ok popped w' → wf w'.
Proof.
  intros Hwf (Hm & s & below & Hs & Hstk & Hst & Hrt & Hm' & Hstk' & _)%dtor_spec.
  pose proof (owns_modify w w' _ s (λ s, record s (end_time - start self))
                Hs eq_refl Hst Hrt) as Hsame.
  assert (Hlen : length (store w') = length (store w))
    by (by rewrite Hst, length_insert).
  split.
  - intros k b Hb. rewrite Hlen. apply (wf_root w Hwf k). by apply (Hsame None).
  - intros p s' k b Hs' Hb. rewrite Hlen.
    assert (owns w (Some p) k b) as (s0 & Hs0 & Hb0)
      by (apply Hsame; by exists s').
    by eapply wf_child.
  - intros o1 o2 k1 k2 b H1%Hsame H2%Hsame. by eapply wf_unique.
  - intros b Hb. rewrite Hlen in Hb.
    destruct (wf_owned w Hwf b Hb) as (o & k & Hob). exists o, k. by apply Hsame.
  - intros t'. rewrite Hstk'.
    pose proof (wf_chain w Hwf t') as Hc.
    destruct (decide (t' = t)) as [->|Hne].
    + rewrite fn_lookup_insert. rewrite Hstk in Hc. simpl in Hc.
      eapply chain_mono; [|apply Hc]. intros; by apply Hsame.
    + rewrite fn_lookup_insert_ne by done.
      eapply chain_mono; [|apply Hc]. intros; by apply Hsame.
  - done.
Qed.

(** [report], when it runs: it changes nothing but the log. *)
Lemma report_spec t w out w' :
  report t w = Ok out w' →
  mutex w = None ∧
  ∃ ls,
    print_stats (S (length (store w))) (store w) (root w) "" 0 = Some ls ∧
    out = Text "=== Profiling Report ===" :: (Row <$> ls)
            ++ [Text "========================"] ∧
    store w' = store w ∧ root w' = root w ∧ mutex w' = None ∧
    stacks w' = stacks w ∧
    trace w' = mkAccess t WholeTree true :: trace w.
Proof.
  unfold report, lock, traverse, unlock, touch. run_M.
  destruct (mutex w) eqn:Hm; [by case_decide|]. simpl.
  destruct (print_stats (S (length (store w))) (store w) (root w) "" 0)
    as [ls|] eqn:Hp; [|done]. simpl.
  rewrite decide_True by done.
  intros [= <- <-]. split; [done|]. exists ls.
  simpl. rewrite bool_decide_true by done. done.
Qed.




(** ** Construction *)

(** C3.  In a well-formed state the constructor run by thread [t] returns a
    tracker, pushed on the stack of [t], whose node is owned under [key] by
    the node of the tracker that was on top of that stack, or by the Root
    table when the stack was empty.  With a tracker [top] open, the node is
    an entry of the [children] of the node of [top] and no entry of the
    Root table. *)
Theorem ctor_resolves_under_stack_top (t : tid) (self : ptr) (key : string) (now : R)
    (w : world) :
  wf w →
  ∃ obj w',
    ctor t self key now w = Ok obj w' ∧
    stacks w' t = obj :: stacks w t ∧
    name obj = key ∧
    parent_stats obj = stack_parent (stacks w t) ∧
    owns w' (stack_parent (stacks w t)) key (current_stats obj) ∧
    (∀ top below, stacks w t = top :: below →
       (∃ s, store w' !! current_stats top = Some s ∧
             children s !! key = Some (current_stats obj)) ∧
       ∀ k, root w' !! k ≠ Some (current_stats obj)) ∧
    (stacks w t = [] → root w' !! key = Some (current_stats obj)).
Proof.
  intros Hwf.
  destruct (resolve_total t (stack_parent (stacks w t)) key w) as (cur & w1 & Hres).
  { intros p Hp. pose proof (wf_chain w Hwf t) as Hc.
    destruct (stacks w t) as [|top below]; [done|].
    injection Hp as <-. eapply chain_allocated; [done.. | by left]. }
  pose proof (ctor_eq t self key now w) as Heq. rewrite Hres in Heq.
  cbn zeta in Heq. eexists _, _. split; [exact Heq|].
  pose proof (ctor_wf _ _ _ _ _ _ _ Hwf Heq) as Hwf'.
  destruct (resolve_spec _ _ _ _ _ _ Hres) as (Hstk & _).
  destruct (resolve_wf_owns _ _ _ _ _ _ Hwf Hres) as (_ & Hnew & _).
  simpl. rewrite fn_lookup_insert, Hstk.
  split; [done|]. split; [done|]. split; [done|]. split; [exact Hnew|].
  split.
  - intros top below Htop. rewrite Htop in Hnew. simpl in Hnew.
    split; [exact Hnew|].
    intros k Hk.
    destruct (wf_unique _ Hwf' (Some (current_stats top)) None key k cur); done.
  - intros Hnil. by rewrite Hnil in Hnew.
Qed.

Lemma ctor_resolves_under_stack_top_witness :
  ∃ obj w',
    ctor 0 1 "X" 0 example_outer = Ok obj w' ∧
    stacks w' 0%nat = obj :: stacks example_outer 0%nat ∧
    name obj = "X" ∧
    parent_stats obj = Some 0%nat ∧
    owns w' (Some 0%nat) "X" (current_stats obj).
Proof.
  assert (Hwf : wf example_outer).
  { apply (ctor_wf 0 0 "outer" 0 initial
             {| this := 0; name := "outer"; start := 0;
                parent_stats := None; current_stats := 0 |});
      [apply initial_wf | reflexivity]. }
  destruct (ctor_resolves_under_stack_top 0 1 "X" 0 example_outer Hwf)
    as (obj & w' & Hc & Hs & Hn & Hp & Ho & _).
  exists obj, w'. done.
Defined.

(** ** Settling *)

(** C10.  When the destructor of [self] runs on thread [t] (mutex free,
    node allocated, stack of [t] not empty) it replaces the node of [self]
    by [record] of it, which keeps its [children]; every other node, the
    size of the store and the Root table are unchanged; the stack of [t]
    loses its top and no other stack changes; the mutex is free again. *)
Theorem dtor_frame (t : tid) (self : SectionProfiler) (end_time : R) (w : world)
    (s : Stats) (top : SectionProfiler) (below : list SectionProfiler) :
  mutex w = None →
  store w !! current_stats self = Some s →
  stacks w t = top :: below →
  ∃ w',
    dtor t self end_time w = Ok top w' ∧
    store w' !! current_stats self = Some (record s (end_time - start self)) ∧
    children (record s (end_time - start self)) = children s ∧
    (∀ a, a ≠ current_stats self → store w' !! a = store w !! a) ∧
    length (store w') = length (store w) ∧
    root w' = root w ∧
    stacks w' t = below ∧
    (∀ t', t' ≠ t → stacks w' t' = stacks w t') ∧
    mutex w' = mutex w.
Proof.
  intros Hm Hs Hstk.
  destruct (dtor_total t self end_time w s top below Hm Hs Hstk) as [w' Hd].
  exists w'. split; [exact Hd|].
  apply dtor_spec in Hd
    as (_ & s' & below' & Hs' & Hstk' & Hst & Hrt & Hm' & Hstks & _).
  assert (s' = s) as -> by congruence.
  assert (below' = below) as -> by congruence.
  rewrite Hst, Hstks, Hm, Hm'.
  split; [apply list_lookup_insert_eq; by eapply lookup_lt_Some|].
  split; [done|].
  split; [intros a Ha; by apply list_lookup_insert_ne|].
  split; [apply length_insert|]. split; [done|].
  split; [apply fn_lookup_insert|].
  split; [|done]. intros t' Ht'. by apply fn_lookup_insert_ne.
Qed.

Lemma dtor_frame_witness :
  ∃ w',
    dtor 0 (mkProfiler 0 "outer" 0 None 0) 10 example_outer
    = Ok (mkProfiler 0 "outer" 0 None 0) w' ∧
    store w' !! 0%nat = Some (record Stats_default (10 - 0)) ∧
    root w' = root example_outer ∧
    stacks w' 0%nat = [].
Proof.
  destruct (dtor_frame 0 (mkProfiler 0 "outer" 0 None 0) 10 example_outer
              Stats_default (mkProfiler 0 "outer" 0 None 0) [])
    as (w' & Hd & Hs & _ & _ & _ & Hr & Hstk & _); [reflexivity..|].
  exists w'. done.
Defined.

(** ** Identity of nodes *)





(** ** The report *)

(** The body of the loop of [print_stats] for one entry. *)
Lemma print_stats_S fuel st m indent pt :
  print_stats (S fuel) st m indent pt
  = @mjoin list _ line <$> mapM (λ entry : string * nat,
        stats ← st !! entry.2;
        sub ← (if decide (children stats = ∅) then Some []
               else print_stats fuel st (children stats)
                      (indent +:+ "  ") (total_time stats));
        Some (render_line indent entry.1 stats pt :: sub))
      (map_to_list m).
Proof. reflexivity. Qed.

(** Children are allocated after their parent, so the height of the
    forest below a map is bounded and the fuel suffices. *)
Lemma print_stats_total st :
  (∀ p s k b, st !! p = Some s → children s !! k = Some b →
              (p < b < length st)%nat) →
  ∀ fuel m indent pt,
    (0 < fuel)%nat →
    (∀ k a, m !! k = Some a → (a < length st ∧ length st < fuel + a)%nat) →
    is_Some (print_stats fuel st m indent pt).
Proof.
  intros Hchild fuel.
  induction fuel as [|fuel IH]; intros m indent pt Hpos Hm; [lia|].
  rewrite print_stats_S. apply fmap_is_Some, mapM_is_Some, list.Forall_forall.
  intros [k a] Hin%elem_of_map_to_list. simpl.
  destruct (Hm k a Hin) as [Ha Hfuel].
  destruct (lookup_lt_is_Some_2 st a Ha) as [s Hs]. rewrite Hs. simpl.
  destruct (decide (children s = ∅)) as [He|Hne]; [done|].
  destruct (IH (children s) (indent +:+ "  ") (total_time s)) as [sub Hsub].
  - lia.
  - intros k' b Hb. destruct (Hchild a s k' b Hs Hb). lia.
  - by rewrite Hsub.
Qed.

(** The lines [print_stats] produces are exactly the lines of the nodes
    of the forest. *)
Lemma print_stats_sound st fuel :
  ∀ m indent pt ls l,
    print_stats fuel st m indent pt = Some ls → l ∈ ls → shown st m indent pt l.
Proof.
  induction fuel as [|fuel IH]; intros m indent pt ls l; [done|].
  rewrite print_stats_S. intros Hp Hl.
  apply fmap_Some in Hp as (lss & Hmap & ->).
  apply list_elem_of_join in Hl as (chunk & Hl & Hchunk).
  apply mapM_Some_1 in Hmap.
  destruct (proj1 (list_elem_of_lookup _ _) Hchunk) as [i Hi].
  destruct (Forall2_lookup_r _ _ _ _ _ Hmap Hi) as ([k a] & Hka & Hf).
  apply list_elem_of_lookup_2, elem_of_map_to_list in Hka. simpl in Hf.
  destruct (st !! a) as [s|] eqn:Hs; [|done]. simpl in Hf.
  destruct (decide (children s = ∅)) as [He|Hne].
  - injection Hf as <-. apply list_elem_of_singleton in Hl as ->.
    by eapply shown_here.
  - destruct (print_stats fuel st (children s) _ _) as [sub|] eqn:Hsub; [|done].
    injection Hf as <-.
    apply elem_of_cons in Hl as [->|Hl]; [by eapply shown_here|].
    eapply shown_below; [done..|]. by eapply IH.
Qed.

Lemma print_stats_complete st m indent pt l :
  shown st m indent pt l →
  ∀ fuel ls, print_stats fuel st m indent pt = Some ls → l ∈ ls.
Proof.
  induction 1 as [m indent pt key a s Hk Hs | m indent pt key a s l Hk Hs Hsh IH];
    intros [|fuel] ls; try done; rewrite print_stats_S; intros Hp;
    apply fmap_Some in Hp as (lss & Hmap & ->);
    apply mapM_Some_1 in Hmap;
    apply elem_of_map_to_list, list_elem_of_lookup in Hk as [i Hi];
    destruct (Forall2_lookup_l _ _ _ _ _ Hmap Hi) as (chunk & Hchunk & Hf);
    simpl in Hf; rewrite Hs in Hf; simpl in Hf;
    apply list_elem_of_join; exists chunk;
    (split; [|by eapply list_elem_of_lookup_2]).
  - destruct (decide (children s = ∅)); simpl in Hf.
    + injection Hf as <-. by left.
    + destruct (print_stats fuel st (children s) _ _); [|done].
      injection Hf as <-. by left.
  - destruct (decide (children s = ∅)) as [He|Hne]; simpl in Hf.
    + exfalso. clear -He Hsh. rewrite He in Hsh.
      inversion Hsh; subst; by rewrite lookup_empty in *.
    + destruct (print_stats fuel st (children s) _ _) as [sub|] eqn:Hsub; [|done].
      injection Hf as <-. right. by eapply IH.
Qed.

(** Every shown line is the line of an owned node, printed against the
    baseline of its owner. *)
Lemma shown_owned w m indent pt l :
  shown (store w) m indent pt l →
  ∀ o, (∀ k a, m !! k = Some a → owns w o k a) → pt = baseline w o →
  ∃ o' k a s indent',
    owns w o' k a ∧ store w !! a = Some s ∧
    l = render_line indent' k s (baseline w o').
Proof.
  induction 1 as [m indent pt key a s Hk Hs | m indent pt key a s l Hk Hs _ IH];
    intros o Hm ->.
  - exists o, key, a, s, indent. auto.
  - apply (IH (Some a)).
    + intros k b Hb. by exists s.
    + simpl. by rewrite Hs.
Qed.

(** Every owned node, and everything below it, is shown by a traversal
    from the Root table: by induction on the address, a parent being
    allocated before its children. *)
Lemma owned_shown w :
  wf w →
  ∀ a o k s,
    owns w o k a → store w !! a = Some s →
    ∃ indent, ∀ l,
      l = render_line indent k s (baseline w o) ∨
      shown (store w) (children s) (indent +:+ "  ") (total_time s) l →
      shown (store w) (root w) "" 0 l.
Proof.
  intros Hwf a. induction a as [a IH] using lt_wf_ind. intros o k s Ho Hs.
  destruct o as [p|]; simpl in Ho.
  - destruct Ho as (ps & Hps & Hk).
    destruct (wf_child w Hwf p ps k a Hps Hk) as [Hlt _].
    destruct (wf_owned w Hwf p) as (o' & k' & Ho'); [by eapply lookup_lt_Some|].
    destruct (IH p Hlt o' k' ps Ho' Hps) as [indent Hshown].
    exists (indent +:+ "  "). intros l Hl. apply Hshown. right.
    destruct Hl as [-> | Hl].
    + simpl. rewrite Hps. by eapply shown_here.
    + by eapply shown_below.
  - exists "". intros l [-> | Hl].
    + by eapply shown_here.
    + by eapply shown_below.
Qed.

Lemma percent_no_baseline stats pt : pt <= 0 → percent stats pt = 100.
Proof. intros Hpt. unfold percent. destruct (Rlt_dec 0 pt); [lra | done]. Qed.

Lemma percent_baseline stats pt :
  0 < pt → percent stats pt = total_time stats / pt * 100.
Proof. intros Hpt. unfold percent. destruct (Rlt_dec 0 pt); [done | lra]. Qed.

Lemma report_total t w :
  wf w → ∃ out w', report t w = Ok out w'.
Proof.
  intros Hwf.
  destruct (print_stats_total (store w) (wf_child w Hwf)
              (S (length (store w))) (root w) "" 0) as [ls Hls]; [lia | |].
  { intros k a Ha. apply (wf_root w Hwf) in Ha. lia. }
  unfold report, lock, traverse, unlock, touch. run_M.
  rewrite (wf_mutex w Hwf). simpl. rewrite Hls. simpl.
  rewrite decide_True by done. by eexists _, _.
Qed.

(** C7.  In a well-formed state [report] returns, and its rows are the
    lines of the nodes of the tree, each printed against the baseline of
    its owner: [0.0] for an entry of the Root table and the [total_time] of
    the parent node for an entry of that node's [children].  The
    percentage on a line is [100] when that baseline is not positive, so
    always for a root node, and [total_time / baseline * 100] otherwise. *)
Theorem report_percent_of_parent (t : tid) (w : world) :
  wf w →
  ∃ out w',
    report t w = Ok out w' ∧
    (∀ l, Row l ∈ out →
       ∃ o k a s indent,
         owns w o k a ∧ store w !! a = Some s ∧
         l = render_line indent k s (baseline w o)) ∧
    (∀ o k a s,
       owns w o k a → store w !! a = Some s →
       ∃ indent, Row (render_line indent k s (baseline w o)) ∈ out) ∧
    (∀ o k s indent,
       let l := render_line indent k s (baseline w o) in
       (o = None → l_pct l = 100) ∧
       (baseline w o <= 0 → l_pct l = 100) ∧
       (0 < baseline w o → l_pct l = total_time s / baseline w o * 100)).
Proof.
  intros Hwf. destruct (report_total t w Hwf) as (out & w' & Hr).
  exists out, w'. split; [exact Hr|].
  apply report_spec in Hr as (_ & ls & Hls & -> & _).
  assert (Hrow : ∀ l, Row l ∈ Text "=== Profiling Report ===" :: (Row <$> ls)
                        ++ [Text "========================"] ↔ l ∈ ls).
  { intros l. rewrite elem_of_cons, elem_of_app, list_elem_of_singleton,
      list_elem_of_fmap. split.
    - intros [? | [(l' & [= ->] & Hl) | ?]]; done.
    - intros Hl. right. left. by exists l. }
  split; [|split].
  - intros l Hl%Hrow.
    apply (print_stats_sound _ _ _ _ _ _ _ Hls) in Hl.
    by apply (shown_owned w _ _ _ _ Hl None).
  - intros o k a s Ho Hs.
    destruct (owned_shown w Hwf a o k s Ho Hs) as [indent Hshown].
    exists indent. apply Hrow.
    eapply print_stats_complete; [|exact Hls]. apply Hshown. by left.
  - intros o k s indent. simpl. split; [|split].
    + intros ->. simpl. apply percent_no_baseline. lra.
    + apply percent_no_baseline.
    + apply percent_baseline.
Qed.

Lemma report_percent_of_parent_witness :
  ∃ out w',
    report 1 example_settled = Ok out w' ∧
    ∃ indent,
      Row (render_line indent "outer" (record Stats_default (10 - 0)) 0) ∈ out ∧
      l_pct (render_line indent "outer" (record Stats_default (10 - 0)) 0) = 100.
Proof.
  assert (Hwf : wf example_settled).
  { apply (dtor_wf 0 (mkProfiler 0 "outer" 0 None 0) 10 example_outer
             (mkProfiler 0 "outer" 0 None 0)); [|reflexivity].
    apply (ctor_wf 0 0 "outer" 0 initial (mkProfiler 0 "outer" 0 None 0));
      [apply initial_wf | reflexivity]. }
  destruct (report_percent_of_parent 1 example_settled Hwf)
    as (out & w' & Hr & _ & Hall & Hpct).
  exists out, w'. split; [exact Hr|].
  destruct (Hall None "outer" 0%nat (record Stats_default (10 - 0)))
    as [indent Hin]; [reflexivity..|].
  exists indent. split; [exact Hin|].
  apply (Hpct None "outer" (record Stats_default (10 - 0)) indent). reflexivity.
Defined.

(** ** Scoped use: trackers settle in reverse order *)

Lemma lifo_run_app open evs1 evs2 :
  lifo_run open (evs1 ++ evs2) = lifo_run open evs1 ≫= λ open', lifo_run open' evs2.
Proof.
  revert open. induction evs1 as [|[x|x popped] evs1 IH]; intros open; simpl; [done|..].
  - apply IH.
  - destruct open as [|y open']; [done|]. case_decide; [apply IH | done].
Qed.

(** The events of one closed block: arm, a balanced body, settle. *)
Lemma lifo_run_block x body open :
  (∀ open', lifo_run open' body = Some open') →
  lifo_run open ([Armed x] ++ body ++ [Settled x x]) = Some open.
Proof.
  intros Hbody. simpl. rewrite lifo_run_app, Hbody. simpl.
  by rewrite decide_True.
Qed.

(** An operation of another thread leaves the stack of [t] alone. *)
Lemma step_of_other_stack t t' w w' :
  t' ≠ t → step_of t' w w' → stacks w' t = stacks w t.
Proof.
  intros Hne Hs.
  destruct Hs as [self key now w obj w' Hc | obj below now w popped w' _ Hd
                  | w out w' Hr].
  - rewrite ctor_eq in Hc.
    destruct (resolve _ _ _ _) as [cur w1| |] eqn:Hres; [|done..].
    injection Hc as <- <-. simpl.
    destruct (resolve_spec _ _ _ _ _ _ Hres) as (-> & _).
    by rewrite fn_lookup_insert_ne.
  - apply dtor_spec in Hd as (_ & s & ? & _ & _ & _ & _ & _ & -> & _).
    by rewrite fn_lookup_insert_ne.
  - by apply report_spec in Hr as (_ & ls & _ & _ & _ & _ & _ & -> & _).
Qed.

Lemma ctor_pushes t self key now w obj w' :
  ctor t self key now w = Ok obj w' →
  this obj = self ∧ stacks w' t = obj :: stacks w t.
Proof.
  rewrite ctor_eq.
  destruct (resolve _ _ _ _) as [cur w1| |] eqn:Hres; [|done..].
  intros [= <- <-]. simpl.
  destruct (resolve_spec _ _ _ _ _ _ Hres) as (-> & _).
  by rewrite fn_lookup_insert.
Qed.

(** Whatever the other threads do, a block leaves the stack of its thread
    as it found it, and its events replay as a stack discipline. *)
Lemma runs_lifo t c fr w o fr' w' :
  runs t c fr w o fr' w' →
  stacks w' t = stacks w t ∧
  ∃ evs, events fr' = events fr ++ evs ∧ balanced evs ∧ section_shape c evs.
Proof.
  induction 1 as
    [ fr w | fr w | d rest fr w o fr' w' _ IH
    | key body rest fr w obj w1 fr1 w2 popped w3 o fr' w' Hc _ IHb Hd _ IHr
    | key body rest fr w obj w1 fr1 w2 popped w3 Hc _ IHb Hd
    | t' c fr w w1 o fr' w' Hne Hs _ IH ].
  - split; [done|]. exists []. by rewrite app_nil_r.
  - split; [done|]. exists []. by rewrite app_nil_r.
  - destruct IH as (Hstk & evs & Hevs & Hbal & _).
    split; [done|]. by exists evs.
  - destruct (ctor_pushes _ _ _ _ _ _ _ Hc) as [_ Hpush].
    destruct IHb as (Hstk2 & evb & Hevb & Hb & _).
    destruct IHr as (Hstk' & evr & Hevr & Hr & _).
    apply dtor_spec in Hd as (_ & s & below & _ & Htop & _ & _ & _ & Hstk3 & _).
    rewrite Hstk2, Hpush in Htop. injection Htop as <- <-.
    split.
    { rewrite Hstk', Hstk3. apply fn_lookup_insert. }
    exists ([Armed (this obj)] ++ evb ++ [Settled (this obj) (this obj)] ++ evr).
    split; [|split].
    + rewrite Hevr. simpl. rewrite Hevb. simpl. by rewrite <- !app_assoc.
    + intros open. rewrite !app_assoc, lifo_run_app, <- app_assoc.
      rewrite lifo_run_block by done. simpl. apply Hr.
    + by exists (this obj), evb, evr.
  - destruct (ctor_pushes _ _ _ _ _ _ _ Hc) as [_ Hpush].
    destruct IHb as (Hstk2 & evb & Hevb & Hb & _).
    apply dtor_spec in Hd as (_ & s & below & _ & Htop & _ & _ & _ & Hstk3 & _).
    rewrite Hstk2, Hpush in Htop. injection Htop as <- <-.
    split.
    { rewrite Hstk3. apply fn_lookup_insert. }
    exists ([Armed (this obj)] ++ evb ++ [Settled (this obj) (this obj)] ++ []).
    split; [|split].
    + simpl. rewrite Hevb. simpl. by rewrite <- !app_assoc.
    + rewrite app_nil_r. intros open. by apply lifo_run_block.
    + by exists (this obj), evb, [].
  - destruct IH as (Hstk & evs & Hevs & Hl).
    split; [|by exists evs].
    rewrite Hstk. by eapply step_of_other_stack.
Qed.

Lemma exec_profiled t key body rest fr w :
  exec t (Profiled key body rest) fr w =
  match ctor t (fresh fr) key (clock fr) w with
  | Ok obj w1 =>
      match exec t body {| clock := clock fr; fresh := S (fresh fr);
                           events := events fr ++ [Armed (this obj)] |} w1 with
      | Ok r w2 =>
          match dtor t obj (clock r.2) w2 with
          | Ok popped w3 =>
              let fr' := {| clock := clock r.2; fresh := fresh r.2;
                            events := events r.2
                                        ++ [Settled (this obj) (this popped)] |} in
              match r.1 with
              | Normal => exec t rest fr' w3
              | Raised => Ok (Raised, fr') w3
              end
          | Blocked => Blocked
          | Undefined => Undefined
          end
      | Blocked => Blocked
      | Undefined => Undefined
      end
  | Blocked => Blocked
  | Undefined => Undefined
  end.
Proof.
  simpl. run_M.
  destruct (ctor _ _ _ _ _) as [obj w1| |]; [|done..].
  destruct (exec t body _ w1) as [[o1 fr1] w2| |]; [|done..]. simpl.
  destruct (dtor _ _ _ _) as [popped w3| |]; [|done..].
  by destruct o1.
Qed.

(** A run without interference is a run. *)
Lemma exec_runs t c :
  ∀ fr w o fr' w', exec t c fr w = Ok (o, fr') w' → runs t c fr w o fr' w'.
Proof.
  induction c as [|d rest IH| |key body IHb rest IHr]; intros fr w o fr' w'.
  - intros [= <- <- <-]. constructor.
  - simpl. intros He. constructor. by apply IH.
  - intros [= <- <- <-]. constructor.
  - rewrite exec_profiled.
    destruct (ctor _ _ _ _ _) as [obj w1| |] eqn:Hc; [|done..].
    destruct (exec t body _ w1) as [[o1 fr1] w2| |] eqn:Hb; [|done..]. simpl.
    destruct (dtor _ _ _ _) as [popped w3| |] eqn:Hd; [|done..].
    apply IHb in Hb. destruct o1.
    + intros Hr%IHr. by eapply runs_profiled.
    + intros [= <- <- <-]. by eapply runs_unwound.
Qed.

Lemma ctor_total t self key now w :
  wf w → ∃ obj w', ctor t self key now w = Ok obj w'.
Proof.
  intros Hwf.
  destruct (resolve_total t (stack_parent (stacks w t)) key w) as (cur & w1 & Hres).
  { intros p Hp. pose proof (wf_chain w Hwf t) as Hc.
    destruct (stacks w t) as [|top below]; [done|].
    injection Hp as <-. eapply chain_allocated; [done.. | by left]. }
  rewrite ctor_eq, Hres. by eexists _, _.
Qed.

(** In a well-formed state a block runs to its end. *)
Lemma exec_total t c :
  ∀ fr w, wf w → ∃ o fr' w', exec t c fr w = Ok (o, fr') w' ∧ wf w'.
Proof.
  induction c as [|d rest IH| |key body IHb rest IHr]; intros fr w Hwf.
  - by exists Normal, fr, w.
  - simpl. by apply IH.
  - by exists Raised, fr, w.
  - rewrite exec_profiled.
    destruct (ctor_total t (fresh fr) key (clock fr) w Hwf) as (obj & w1 & Hc).
    rewrite Hc. pose proof (ctor_wf _ _ _ _ _ _ _ Hwf Hc) as Hwf1.
    destruct (IHb {| clock := clock fr; fresh := S (fresh fr);
                     events := events fr ++ [Armed (this obj)] |} w1 Hwf1)
      as (o1 & fr1 & w2 & Hb & Hwf2).
    rewrite Hb. simpl.
    destruct (runs_lifo _ _ _ _ _ _ _ (exec_runs _ _ _ _ _ _ _ Hb)) as [Hstk _].
    destruct (ctor_pushes _ _ _ _ _ _ _ Hc) as [_ Hpush].
    rewrite Hpush in Hstk.
    destruct (lookup_lt_is_Some_2 (store w2) (current_stats obj)) as [s Hs].
    { eapply chain_allocated; [done | apply (wf_chain w2 Hwf2 t)|].
      rewrite Hstk. by left. }
    destruct (dtor_total t obj (clock fr1) w2 s obj (stacks w t)
                (wf_mutex w2 Hwf2) Hs Hstk) as [w3 Hd].
    rewrite Hd. pose proof (dtor_wf _ _ _ _ _ _ Hwf2 Hd) as Hwf3.
    destruct o1.
    + by apply IHr.
    + by eexists _, _, _.
Qed.

(** C9.  A block of scoped sections run by a thread in a well-formed state
    runs to its end; and in every run of it, whatever operations the other
    threads interleave and whether blocks are left normally or by an
    exception, the thread's stack ends as it began and the events replay
    as a stack discipline: each destructor runs for the most recently
    armed tracker still open and pops that very tracker.  For a section,
    everything armed in its body has settled before its own tracker
    settles. *)
Theorem scoped_trackers_settle_lifo (t : tid) (c : code) (fr : frame) (w : world) :
  wf w →
  (∃ o fr' w', exec t c fr w = Ok (o, fr') w') ∧
  (∀ o fr' w',
     runs t c fr w o fr' w' →
     stacks w' t = stacks w t ∧
     ∃ evs, events fr' = events fr ++ evs ∧
            (∀ open, lifo_run open evs = Some open) ∧
            section_shape c evs).
Proof.
  intros Hwf. split.
  - destruct (exec_total t c fr w Hwf) as (o & fr' & w' & He & _). eauto.
  - intros o fr' w'. apply runs_lifo.
Qed.

Lemma scoped_trackers_settle_lifo_witness :
  ∃ o fr' w',
    exec 0 example_block (mkFrame 0 0 []) initial = Ok (o, fr') w' ∧
    stacks w' 0%nat = [] ∧
    ∃ evs, events fr' = evs ∧
           (∀ open, lifo_run open evs = Some open) ∧
           section_shape example_block evs.
Proof.
  destruct (scoped_trackers_settle_lifo 0 example_block (mkFrame 0 0 []) initial
              initial_wf) as [(o & fr' & w' & He) Hall].
  exists o, fr', w'. split; [exact He|].
  apply exec_runs, Hall in He. exact He.
Defined.

Example example_block_events :
  match exec 0 example_block (mkFrame 0 0 []) initial with
  | Ok (o, fr') w' => Some (o, events fr', stacks w' 0%nat, length (store w'))
  | _ => None
  end
  = Some (Raised, [Armed 0; Armed 1; Settled 1 1; Settled 0 0], [], 2%nat).
Proof. reflexivity. Qed.

(** ** Lock discipline *)

Lemma new_accesses_cons w w' x :
  trace w' = x :: trace w → new_accesses w w' = [x].
Proof.
  intros Ht. unfold new_accesses. rewrite Ht. simpl.
  replace (S (length (trace w)) - length (trace w))%nat with 1%nat by lia.
  done.
Qed.

(** The destructor and [report] touch the tree with the mutex held. *)
Lemma dtor_locked t self end_time w popped w' :
  dtor t self end_time w = Ok popped w' →
  new_accesses w w' = [mkAccess t (Node (current_stats self)) true] ∧
  all_locked (new_accesses w w') = true.
Proof.
  intros (_ & s & below & _ & _ & _ & _ & _ & _ & Ht)%dtor_spec.
  by rewrite (new_accesses_cons _ _ _ Ht).
Qed.

Lemma report_locked t w out w' :
  report t w = Ok out w' →
  new_accesses w w' = [mkAccess t WholeTree true] ∧
  all_locked (new_accesses w w') = true.
Proof.
  intros (_ & ls & _ & _ & _ & _ & _ & _ & Ht)%report_spec.
  by rewrite (new_accesses_cons _ _ _ Ht).
Qed.

(** The constructor never takes the mutex: it indexes the Root table or
    the [children] of the parent whoever holds it, and leaves it as it
    was. *)
Lemma ctor_unlocked t self key now w obj w' :
  mutex w ≠ Some t →
  ctor t self key now w = Ok obj w' →
  mutex w' = mutex w ∧
  new_accesses w w' = [mkAccess t (map_place (stack_parent (stacks w t))) false] ∧
  all_locked (new_accesses w w') = false.
Proof.
  intros Hm. rewrite ctor_eq.
  destruct (resolve _ _ _ _) as [cur w1| |] eqn:Hres; [|done..].
  intros [= <- <-].
  destruct (resolve_spec _ _ _ _ _ _ Hres) as (_ & Hmx & Ht & _).
  rewrite bool_decide_false in Ht by done.
  split; [done|].
  by rewrite (new_accesses_cons w (set_stack t _ w1) _ Ht).
Qed.

Lemma ctor_not_blocked t self key now w :
  ctor t self key now w ≠ Blocked.
Proof.
  rewrite ctor_eq. unfold resolve, children_index, root_index, touch. run_M.
  destruct (stack_parent (stacks w t)) as [p|]; simpl.
  - destruct (store w !! p) as [s|]; [|done].
    by destruct (children s !! key).
  - by destruct (root w !! key).
Qed.

(** C1.  With the mutex owned by thread [1] (as it is inside [report] or a
    destructor), the constructor run by thread [2] is not held back: it
    inserts a new entry in the Root table and a new node in the store, and
    its access is logged as made without the mutex.  The destructor, in
    the same state, waits. *)
Theorem ctor_mutates_tree_without_lock :
  let w := set_mutex (Some 1%nat) initial in
  ∃ obj w',
    ctor 2 0 "main" 0 w = Ok obj w' ∧
    mutex w' = Some 1%nat ∧
    root w !! "main" = None ∧ root w' !! "main" = Some 0%nat ∧
    store w = [] ∧ store w' = [Stats_default] ∧
    new_accesses w w' = [mkAccess 2 RootTable false] ∧
    all_locked (new_accesses w w') = false ∧
    dtor 2 obj 1 w' = Blocked.
Proof.
  cbn zeta.
  exists (mkProfiler 0 "main" 0 None 0),
         (world_of (ctor 2 0 "main" 0 (set_mutex (Some 1%nat) initial))).
  repeat split; reflexivity.
Qed.

(** ** The nodes of the store are reachable nodes *)

Lemma initial_nodes_reachable : nodes_reachable initial.
Proof. intros a s Hs. simpl in Hs. by rewrite lookup_nil in Hs. Qed.

Lemma resolve_nodes_reachable t parent key w a w1 :
  nodes_reachable w → resolve t parent key w = Ok a w1 → nodes_reachable w1.
Proof.
  intros Hn Hres b s.
  assert (Hdef : reachable Stats_default) by (apply reach_new; by repeat split).
  destruct parent as [p|].
  - destruct (store w !! p) as [ps|] eqn:Hps.
    2:{ simpl in Hres. unfold children_index, touch in Hres. revert Hres. run_M.
        simpl. by rewrite Hps. }
    destruct (children ps !! key) as [a'|] eqn:Hk.
    + rewrite (resolve_hit t (Some p) key w a') in Hres by (by exists ps).
      injection Hres as <- <-. apply Hn.
    + rewrite (resolve_miss_child t p ps key w) in Hres by done.
      injection Hres as <- <-. unfold new_child_entry. simpl.
      intros [Hb | [_ Hb]]%lookup_app_Some.
      * destruct (decide (b = p)) as [->|Hne].
        -- rewrite list_lookup_insert_eq in Hb by (by eapply lookup_lt_Some).
           injection Hb as <-. apply reach_child. by eapply Hn.
        -- rewrite list_lookup_insert_ne in Hb by done. by eapply Hn.
      * apply list_lookup_singleton_Some in Hb as [_ <-]. exact Hdef.
  - destruct (root w !! key) as [a'|] eqn:Hk.
    + rewrite (resolve_hit t None key w a') in Hres by done.
      injection Hres as <- <-. apply Hn.
    + rewrite resolve_miss_root in Hres by done.
      injection Hres as <- <-. unfold new_root_entry. simpl.
      intros [Hb | [_ Hb]]%lookup_app_Some; [by eapply Hn|].
      apply list_lookup_singleton_Some in Hb as [_ <-]. exact Hdef.
Qed.

Lemma ctor_nodes_reachable t self key now w obj w' :
  nodes_reachable w → ctor t self key now w = Ok obj w' → nodes_reachable w'.
Proof.
  intros Hn. rewrite ctor_eq.
  destruct (resolve _ _ _ _) as [cur w1| |] eqn:Hres; [|done..].
  intros [= <- <-] b s Hb.
  by apply (resolve_nodes_reachable _ _ _ _ _ _ Hn Hres b s).
Qed.

(** A destructor whose clock did not run backwards keeps the nodes
    reachable, as long as the counter of its node has room. *)
Lemma dtor_nodes_reachable t self end_time w popped w' :
  nodes_reachable w → start self <= end_time →
  (∀ s, store w !! current_stats self = Some s → (call_count s < SIZE_MAX)%Z) →
  dtor t self end_time w = Ok popped w' → nodes_reachable w'.
Proof.
  intros Hn Hclock Hroom (_ & s & below & Hs & _ & Hst & _)%dtor_spec b s'.
  rewrite Hst. destruct (decide (b = current_stats self)) as [->|Hne].
  - rewrite list_lookup_insert_eq by (by eapply lookup_lt_Some).
    intros [= <-]. apply reach_record; [by eapply Hn | lra | by apply Hroom].
  - rewrite list_lookup_insert_ne by done. apply Hn.
Qed.
